(** * Conformal lattice planner: the loop router and the tables of the lattice

    A shallow embedding of [router::LoopRouter]
    (src/conformal_lattice_planner/loop_router.cpp) and of the table
    maintenance of [planner::Lattice]
    (conformal_lattice_planner/waypoint_lattice.h).

    Conventions of the embedding:
    - [size_t] values (road identifiers, waypoint identifiers) are [Z];
      the one conversion of a negative constant is written with
      [to_size_t];
    - [double] values (distances) are exact rationals [Q]; the functions
      embedded here only compare a distance with zero;
    - a [boost::shared_ptr] or [boost::optional] that may be empty is an
      [option];
    - a C++ [throw] is the left injection of [Call]; every query sent to
      the CARLA map is recorded, in order, in the trace of [Call]. *)

From Stdlib Require Import ZArith QArith String List Lia.
From stdpp Require Import base option list gmap.

Local Open Scope Z_scope.

(** ** The CARLA side: waypoints and the road map *)

(** What the router and the lattice read off a [carla::client::Waypoint]. *)
Record CarlaWaypoint : Type := mkWaypoint {
  GetId     : Z;
  GetRoadId : Z;
  GetLaneId : Z
}.

(** The road map behind the waypoints: [waypoint->GetNext(d)],
    [waypoint->GetLeft()], [waypoint->GetRight()], and the distance
    between the locations of two waypoints. *)
Record CarlaMap : Type := mkMap {
  GetNext  : CarlaWaypoint → Q → list CarlaWaypoint;
  GetLeft  : CarlaWaypoint → option CarlaWaypoint;
  GetRight : CarlaWaypoint → option CarlaWaypoint;
  Distance : CarlaWaypoint → CarlaWaypoint → Q
}.

(** ** Exceptions and calls *)

Inductive exn : Type :=
| out_of_range  (what : string)
| runtime_error (what : string).

(** The error kinds of the specification. *)
Definition NotOnRoute : exn := out_of_range "Given road is not on route"%string.
Definition InvalidArgument : exn :=
  runtime_error "Invaid distance when looking for front waypoint."%string.

(** A query sent to the map. *)
Inductive PortQuery : Type :=
| QueryNext (waypoint : CarlaWaypoint) (distance : Q).

(** A call returns the queries it made, in order, and either the
    exception that left it or its value. *)
Definition Call (A : Type) : Type := (list PortQuery * (exn + A))%type.

Definition throw {A} (e : exn) : Call A := ([], inl e).
Definition queries {A} (c : Call A) : list PortQuery := fst c.
Definition outcome {A} (c : Call A) : exn + A := snd c.

Global Instance Call_ret : MRet Call := λ A a, ([], inr a).
Global Instance Call_bind : MBind Call := λ A B f c,
  match c with
  | (t, inl e) => (t, inl e)
  | (t, inr a) => let '(t', r) := f a in (t ++ t', r)
  end.

(** [2^64], the modulus of [size_t]. *)
Definition size_t_modulus : Z := 2 ^ 64.
Definition to_size_t (z : Z) : Z := z mod size_t_modulus.

(** ** router::LoopRouter *)

Module LoopRouter.

Record t : Type := mk { road_sequence_ : list Z }.

(** [LoopRouter::LoopRouter()] *)
Definition new : t :=
  {| road_sequence_ :=
       [47; 558; 48; 887; 49; 717; 50; 42; 276; 43; 35; 636; 36;
        540; 37; 1021; 38; 678; 39; 728; 40; 841; 41; 6; 45; 103;
        46; 659] |}.

(** [std::find(v.begin(), v.end(), x)]: the offset of the first element
    equal to [x]; [None] stands for [v.end()]. *)
Fixpoint std_find (v : list Z) (x : Z) : option nat :=
  match v with
  | [] => None
  | y :: v' => if Z.eqb y x then Some O else S <$> std_find v' x
  end.

(** [*iter] for an iterator at offset [i]. *)
Definition deref (v : list Z) (i : nat) : Z := nth i v 0.

(** [v.front()] and [v.back()]. *)
Definition front (v : list Z) : Z := deref v 0.
Definition back (v : list Z) : Z := deref v (length v - 1).

Section Router.

Context (world : CarlaMap) (self : t).

Definition callGetNext (waypoint : CarlaWaypoint) (distance : Q)
  : Call (list CarlaWaypoint) :=
  ([QueryNext waypoint distance], inr (GetNext world waypoint distance)).

(** The loop of [waypointOnRoute]. *)
Fixpoint waypointOnRoute_loop (candidates : list CarlaWaypoint)
  : option CarlaWaypoint :=
  match candidates with
  | [] => None
  | candidate :: rest =>
      match std_find (road_sequence_ self) (GetRoadId candidate) with
      | Some _ => Some candidate
      | None => waypointOnRoute_loop rest
      end
  end.

Definition waypointOnRoute (waypoint : CarlaWaypoint)
  : Call (option CarlaWaypoint) :=
  candidates ← callGetNext waypoint (1 # 100);
  mret (waypointOnRoute_loop candidates).

Definition nextRoad (road : Z) : Call (option Z) :=
  match std_find (road_sequence_ self) road with
  | None => throw (out_of_range "Given road is not on route"%string)
  | Some iter =>
      if negb (Nat.eqb iter (length (road_sequence_ self) - 1))
      then mret (Some (deref (road_sequence_ self) (S iter)))
      else mret (Some (front (road_sequence_ self)))
  end.

Definition prevRoad (road : Z) : Call (option Z) :=
  match std_find (road_sequence_ self) road with
  | None => throw (out_of_range "Given road is not on route"%string)
  | Some iter =>
      if negb (Nat.eqb iter 0)
      then mret (Some (deref (road_sequence_ self) (iter - 1)))
      else mret (Some (back (road_sequence_ self)))
  end.

Definition nextRoad_of (waypoint : CarlaWaypoint) : Call (option Z) :=
  nextRoad (GetRoadId waypoint).

Definition prevRoad_of (waypoint : CarlaWaypoint) : Call (option Z) :=
  prevRoad (GetRoadId waypoint).

(** The loop of [frontWaypoint]; [next_waypoint] is the local variable
    of that name. *)
Fixpoint frontWaypoint_loop (this_road next_road : Z)
    (candidates : list CarlaWaypoint) (next_waypoint : option CarlaWaypoint)
  : option CarlaWaypoint :=
  match candidates with
  | [] => next_waypoint
  | candidate :: rest =>
      if Z.eqb (GetRoadId candidate) this_road then Some candidate
      else frontWaypoint_loop this_road next_road rest
             (if Z.eqb (GetRoadId candidate) next_road
              then Some candidate else next_waypoint)
  end.

Definition frontWaypoint (waypoint : CarlaWaypoint) (distance : Q)
  : Call (option CarlaWaypoint) :=
  if Qle_bool distance 0
  then throw (runtime_error "Invaid distance when looking for front waypoint."%string)
  else
    candidates ← callGetNext waypoint distance;
    let this_road := GetRoadId waypoint in
    is_next_road ← nextRoad this_road;
    let next_road :=
      match is_next_road with
      | Some r => r
      | None => to_size_t (-1)
      end in
    mret (frontWaypoint_loop this_road next_road candidates None).

End Router.

End LoopRouter.

(** ** planner::WaypointNode and planner::Lattice *)

Module Lattice.

(** [WaypointNode]: the waypoint, the distance in the lattice and the
    four links of [LatticeNode<WaypointNode>].

    Modelled from the spec: the links of [LatticeNode] (lattice_node.h is
    not among the sources): ownership-free references to the front,
    back, left and right node, or absent.  A reference is the waypoint
    identifier of the node it refers to. *)
Record WaypointNode : Type := mkNode {
  waypoint_ : CarlaWaypoint;
  distance_ : Q;
  front_ : option Z;
  back_  : option Z;
  left_  : option Z;
  right_ : option Z
}.

(** The members of [Lattice<Node, Router>].  The nodes live in
    [waypoint_to_node_table_]; [lattice_entry_] and [lattice_exit_] name
    their node by its waypoint identifier. *)
Record t : Type := mk {
  router_ : LoopRouter.t;
  lattice_entry_ : Z;
  lattice_exit_ : Z;
  waypoint_to_node_table_ : gmap Z WaypointNode;
  roadlane_to_waypoints_table_ : gmap (Z * Z) (list Z);
  longitudinal_resolution_ : Q
}.

Definition with_nodes (m : gmap Z WaypointNode) (l : t) : t :=
  mk (router_ l) (lattice_entry_ l) (lattice_exit_ l) m
     (roadlane_to_waypoints_table_ l) (longitudinal_resolution_ l).
Definition with_roadlanes (m : gmap (Z * Z) (list Z)) (l : t) : t :=
  mk (router_ l) (lattice_entry_ l) (lattice_exit_ l)
     (waypoint_to_node_table_ l) m (longitudinal_resolution_ l).

(** The node a shared or weak pointer refers to. *)
Definition node (l : t) (id : Z) : option WaypointNode :=
  waypoint_to_node_table_ l !! id.

(** [latticeEntry()] and [latticeExit()] *)
Definition latticeEntry (l : t) : option WaypointNode :=
  node l (lattice_entry_ l).
Definition latticeExit (l : t) : option WaypointNode :=
  node l (lattice_exit_ l).

(** Modelled from the spec: [utils::hashCombine] of a road and a lane
    identifier (utils.h is not among the sources): the key of the
    second index is the (road, lane) pair. *)
Definition hashCombine (road lane : Z) : Z * Z := (road, lane).

(** *** Maintaining the tables *)

Definition augmentWaypointToNodeTable (waypoint_id : Z) (n : WaypointNode)
    (l : t) : t :=
  with_nodes (<[waypoint_id := n]> (waypoint_to_node_table_ l)) l.

Definition reduceWaypointToNodeTable (waypoint_id : Z) (l : t) : t :=
  with_nodes (delete waypoint_id (waypoint_to_node_table_ l)) l.

Definition augmentRoadlaneToWaypointsTable (waypoint : CarlaWaypoint)
    (l : t) : t :=
  let roadlane_id := hashCombine (GetRoadId waypoint) (GetLaneId waypoint) in
  let table :=
    match roadlane_to_waypoints_table_ l !! roadlane_id with
    | None => <[roadlane_id := []]> (roadlane_to_waypoints_table_ l)
    | Some _ => roadlane_to_waypoints_table_ l
    end in
  with_roadlanes
    (<[roadlane_id := default [] (table !! roadlane_id) ++ [GetId waypoint]]>
       table) l.

Definition reduceRoadlaneToWaypointsTable (waypoint : CarlaWaypoint)
    (l : t) : t :=
  let roadlane_id := hashCombine (GetRoadId waypoint) (GetLaneId waypoint) in
  match roadlane_to_waypoints_table_ l !! roadlane_id with
  | Some waypoints =>
      with_roadlanes
        (<[roadlane_id :=
             filter (λ id, id ≠ GetId waypoint) waypoints]>
           (roadlane_to_waypoints_table_ l)) l
  | None => l
  end.

End Lattice.

(** ** Two small maps *)

Module Scenario.

(** The absolute value of a difference of identifiers, as a distance. *)
Definition apart (a b : CarlaWaypoint) : Q :=
  inject_Z (Z.abs (GetId a - GetId b)).

(** A single endless lane of road 47, sampled every metre: the
    identifier of a waypoint is its position. *)
Definition corridor : CarlaMap :=
  {| GetNext w d := [mkWaypoint (GetId w + 1) (GetRoadId w) (GetLaneId w)];
     GetLeft w := None;
     GetRight w := None;
     Distance := apart |}.

Definition origin : CarlaWaypoint := mkWaypoint 0 47 (-1).

(** A waypoint of a road that is not on the route. *)
Definition stray : CarlaWaypoint := mkWaypoint 0 1 (-1).

(** Three metres of road 47 on which a lane opens between two lanes.
    At positions 0 and 1 lane A (waypoints 10, 11) has lane B (20, 21)
    on its left; at position 2 the new lane C (32) lies between A (12)
    and B (22). *)
Definition a0 := mkWaypoint 10 47 (-2).
Definition a1 := mkWaypoint 11 47 (-2).
Definition a2 := mkWaypoint 12 47 (-3).
Definition b0 := mkWaypoint 20 47 (-1).
Definition b1 := mkWaypoint 21 47 (-1).
Definition b2 := mkWaypoint 22 47 (-1).
Definition c2 := mkWaypoint 32 47 (-2).

Definition widening : CarlaMap :=
  {| GetNext w d :=
       match GetId w with
       | 10 => [a1] | 11 => [a2]
       | 20 => [b1] | 21 => [b2]
       | _ => []
       end;
     GetLeft w :=
       match GetId w with
       | 10 => Some b0 | 11 => Some b1
       | 12 => Some c2 | 32 => Some b2
       | _ => None
       end;
     GetRight w :=
       match GetId w with
       | 20 => Some a0 | 21 => Some a1
       | 22 => Some c2 | 32 => Some a2
       | _ => None
       end;
     Distance := apart |}.

End Scenario.

(** ** Following the route *)

(** [k] calls of [nextRoad], each on the road the call before it
    returned; [None] when one of them throws. *)
Fixpoint nextRoads (self : LoopRouter.t) (k : nat) (road : Z) : option Z :=
  match k with
  | O => Some road
  | S k' =>
      match outcome (LoopRouter.nextRoad self road) with
      | inr (Some next) => nextRoads self k' next
      | _ => None
      end
  end.

(** ** Sample inputs for the tables *)

Module Samples.

Definition resident : CarlaWaypoint := mkWaypoint 0 47 (-1).
Definition neighbour : CarlaWaypoint := mkWaypoint 1 47 (-1).

(** A lattice of two nodes on lane -1 of road 47, one metre apart. *)
Definition lattice : Lattice.t :=
  Lattice.mk LoopRouter.new 0 1
    (<[0 := Lattice.mkNode resident 0 (Some 1) None None None]>
       (<[1 := Lattice.mkNode neighbour 1 None (Some 0) None None]> ∅))
    (<[Lattice.hashCombine 47 (-1) := [0; 1]]> ∅)
    1.

(** A waypoint of the lane of the sample lattice that has no node, and
    one of a lane of which the sample lattice knows nothing. *)
Definition newcomer : CarlaWaypoint := mkWaypoint 99 47 (-1).
Definition outsider : CarlaWaypoint := mkWaypoint 98 47 5.

End Samples.

(** ** Facts about the loop router *)

Import LoopRouter.

Section StdFind.

Implicit Types (v : list Z) (x : Z) (i : nat).

Lemma std_find_Some v x i :
  std_find v x = Some i → v !! i = Some x.
Proof.
  revert i. induction v as [|y v IH]; intros i; simpl; [done|].
  destruct (Z.eqb_spec y x) as [->|Hne].
  - intros [= <-]. done.
  - destruct (std_find v x) as [j|] eqn:Hj; simpl; [|done].
    intros [= <-]. simpl. by apply IH.
Qed.

Lemma std_find_None v x :
  std_find v x = None ↔ x ∉ v.
Proof.
  induction v as [|y v IH]; simpl.
  - split; [intros _; apply not_elem_of_nil | done].
  - rewrite not_elem_of_cons. destruct (Z.eqb_spec y x) as [->|Hne].
    + split; [done | intros [? _]; done].
    + destruct (std_find v x) as [j|] eqn:Hj; simpl.
      * split; [done|]. intros [_ Hin]. apply IH in Hin. done.
      * split; [|done]. intros _. split; [congruence|]. by apply IH.
Qed.

Lemma std_find_is_Some v x :
  x ∈ v → is_Some (std_find v x).
Proof.
  intros Hin. destruct (std_find v x) eqn:E; [by eexists|].
  apply std_find_None in E. done.
Qed.

Lemma std_find_NoDup v x i :
  NoDup v → v !! i = Some x → std_find v x = Some i.
Proof.
  intros Hnd. revert i. induction Hnd as [|y v Hy Hnd IH]; intros i; [done|].
  destruct i as [|i]; simpl.
  - intros [= ->]. by rewrite Z.eqb_refl.
  - intros Hi. destruct (Z.eqb_spec y x) as [->|Hne].
    + exfalso. apply Hy. by eapply list_elem_of_lookup_2.
    + by rewrite (IH i Hi).
Qed.

Lemma deref_lookup v i x :
  v !! i = Some x → deref v i = x.
Proof.
  intros H. unfold deref. by apply nth_lookup_Some with (d := 0) in H.
Qed.

Lemma lookup_deref v i :
  (i < length v)%nat → v !! i = Some (deref v i).
Proof.
  intros H. destruct (lookup_lt_is_Some_2 v i H) as [x Hx].
  by rewrite (deref_lookup _ _ _ Hx).
Qed.

End StdFind.

Section RouterFacts.

Context (world : CarlaMap) (self : LoopRouter.t).

Local Abbreviation S_ := (road_sequence_ self).

Lemma nextRoad_found road i :
  std_find S_ road = Some i →
  nextRoad self road =
    mret (Some (if Nat.eqb i (length S_ - 1) then front S_ else deref S_ (S i))).
Proof.
  intros H. unfold nextRoad. rewrite H. by destruct (Nat.eqb _ _).
Qed.

Lemma prevRoad_found road i :
  std_find S_ road = Some i →
  prevRoad self road =
    mret (Some (if Nat.eqb i 0 then back S_ else deref S_ (i - 1))).
Proof.
  intros H. unfold prevRoad. rewrite H. by destruct (Nat.eqb _ _).
Qed.

Lemma nextRoad_not_found road :
  std_find S_ road = None → nextRoad self road = throw NotOnRoute.
Proof. intros H. unfold nextRoad. by rewrite H. Qed.

Lemma prevRoad_not_found road :
  std_find S_ road = None → prevRoad self road = throw NotOnRoute.
Proof. intros H. unfold prevRoad. by rewrite H. Qed.

(** On a sequence without repetition [prevRoad] undoes [nextRoad]. *)
Lemma prevRoad_undoes_nextRoad s :
  NoDup S_ → s ∈ S_ →
  ∃ n, nextRoad self s = mret (Some n) ∧ prevRoad self n = mret (Some s).
Proof.
  intros Hnd Hin. destruct (std_find_is_Some _ _ Hin) as [i Hi].
  pose proof (std_find_Some _ _ _ Hi) as Hs.
  pose proof (lookup_lt_Some _ _ _ Hs) as Hlt.
  rewrite (nextRoad_found _ _ Hi).
  destruct (Nat.eqb_spec i (length S_ - 1)) as [Hlast|Hlast].
  - exists (front S_). split; [done|].
    assert (S_ !! 0%nat = Some (front S_)) as H0 by (apply lookup_deref; lia).
    rewrite (prevRoad_found _ _ (std_find_NoDup _ _ _ Hnd H0)). simpl.
    unfold back. rewrite <- Hlast. by rewrite (deref_lookup _ _ _ Hs).
  - exists (deref S_ (S i)). split; [done|].
    assert (S_ !! S i = Some (deref S_ (S i))) as H1 by (apply lookup_deref; lia).
    rewrite (prevRoad_found _ _ (std_find_NoDup _ _ _ Hnd H1)). simpl.
    rewrite Nat.sub_0_r. by rewrite (deref_lookup _ _ _ Hs).
Qed.

(** On a sequence without repetition [nextRoad] undoes [prevRoad]. *)
Lemma nextRoad_undoes_prevRoad s :
  NoDup S_ → s ∈ S_ →
  ∃ p, prevRoad self s = mret (Some p) ∧ nextRoad self p = mret (Some s).
Proof.
  intros Hnd Hin. destruct (std_find_is_Some _ _ Hin) as [i Hi].
  pose proof (std_find_Some _ _ _ Hi) as Hs.
  pose proof (lookup_lt_Some _ _ _ Hs) as Hlt.
  rewrite (prevRoad_found _ _ Hi).
  destruct (Nat.eqb_spec i 0) as [Hfirst|Hfirst].
  - exists (back S_). split; [done|].
    assert (S_ !! (length S_ - 1)%nat = Some (back S_)) as H0
      by (apply lookup_deref; lia).
    rewrite (nextRoad_found _ _ (std_find_NoDup _ _ _ Hnd H0)).
    rewrite Nat.eqb_refl. unfold front. rewrite <- Hfirst.
    by rewrite (deref_lookup _ _ _ Hs).
  - exists (deref S_ (i - 1)). split; [done|].
    assert (S_ !! (i - 1)%nat = Some (deref S_ (i - 1))) as H1
      by (apply lookup_deref; lia).
    rewrite (nextRoad_found _ _ (std_find_NoDup _ _ _ Hnd H1)).
    destruct (Nat.eqb_spec (i - 1) (length S_ - 1)) as [E|E]; [lia|].
    replace (S (i - 1)) with i by lia. by rewrite (deref_lookup _ _ _ Hs).
Qed.

(** What the loop of [frontWaypoint] returns, in terms of the candidates. *)
Lemma frontWaypoint_loop_same this_road next_road candidates acc :
  (∃ c, c ∈ candidates ∧ GetRoadId c = this_road) →
  ∃ c, frontWaypoint_loop this_road next_road candidates acc = Some c
       ∧ c ∈ candidates ∧ GetRoadId c = this_road.
Proof.
  revert acc. induction candidates as [|x xs IH]; intros acc [c [Hc Hr]].
  - by apply elem_of_nil in Hc.
  - simpl. destruct (Z.eqb_spec (GetRoadId x) this_road) as [E|E].
    + exists x. split_and!; [done|apply list_elem_of_here|done].
    + apply elem_of_cons in Hc as [->|Hc]; [done|].
      destruct (IH (if Z.eqb (GetRoadId x) next_road then Some x else acc))
        as (c' & H1 & H2 & H3); [by exists c|].
      exists c'. split_and!; [done|by apply list_elem_of_further|done].
Qed.

Lemma frontWaypoint_loop_next_acc this_road next_road candidates acc :
  (∀ c, c ∈ candidates → GetRoadId c ≠ this_road) →
  (∃ c, (c ∈ candidates ∨ acc = Some c) ∧ GetRoadId c = next_road) →
  ∃ c, frontWaypoint_loop this_road next_road candidates acc = Some c
       ∧ (c ∈ candidates ∨ acc = Some c) ∧ GetRoadId c = next_road.
Proof.
  revert acc. induction candidates as [|x xs IH]; intros acc Hno [c [Hc Hr]].
  - destruct Hc as [Hc| ->]; [by apply elem_of_nil in Hc|].
    exists c. auto.
  - simpl. destruct (Z.eqb_spec (GetRoadId x) this_road) as [E|_].
    { exfalso. apply (Hno x); [apply list_elem_of_here|done]. }
    assert (∀ c, c ∈ xs → GetRoadId c ≠ this_road) as Hno'
      by (intros; apply Hno; by apply list_elem_of_further).
    destruct (Z.eqb_spec (GetRoadId x) next_road) as [Ex|Ex].
    + destruct (IH (Some x) Hno') as (c' & H1 & H2 & H3).
      { exists x. auto. }
      exists c'. split_and!; [done| |done].
      destruct H2 as [H2|[= <-]]; left;
        [by apply list_elem_of_further|apply list_elem_of_here].
    + destruct (IH acc Hno') as (c' & H1 & H2 & H3).
      { exists c. split; [|done]. destruct Hc as [Hc|Hc]; [|by right].
        apply elem_of_cons in Hc as [->|Hc]; [done|by left]. }
      exists c'. split_and!; [done| |done].
      destruct H2 as [H2|H2]; [left; by apply list_elem_of_further|by right].
Qed.

Lemma frontWaypoint_loop_next this_road next_road candidates :
  (∀ c, c ∈ candidates → GetRoadId c ≠ this_road) →
  (∃ c, c ∈ candidates ∧ GetRoadId c = next_road) →
  ∃ c, frontWaypoint_loop this_road next_road candidates None = Some c
       ∧ c ∈ candidates ∧ GetRoadId c = next_road.
Proof.
  intros Hno (c & Hc & Hr).
  destruct (frontWaypoint_loop_next_acc this_road next_road candidates None Hno)
    as (c' & H1 & [H2|H2] & H3); [by exists c; auto| |done].
  by exists c'.
Qed.

Lemma frontWaypoint_loop_none this_road next_road candidates acc :
  (∀ c, c ∈ candidates →
        GetRoadId c ≠ this_road ∧ GetRoadId c ≠ next_road) →
  frontWaypoint_loop this_road next_road candidates acc = acc.
Proof.
  revert acc. induction candidates as [|x xs IH]; intros acc Hno; [done|].
  simpl. destruct (Hno x) as [H1 H2]; [apply list_elem_of_here|].
  destruct (Z.eqb_spec (GetRoadId x) this_road) as [E|_]; [done|].
  destruct (Z.eqb_spec (GetRoadId x) next_road) as [E|_]; [done|].
  apply IH. intros; apply Hno; by apply list_elem_of_further.
Qed.

End RouterFacts.

Section RouterClaims.

Context (world : CarlaMap) (self : LoopRouter.t).

Local Abbreviation S_ := (road_sequence_ self).

Lemma frontWaypoint_eval waypoint distance next_road :
  Qle_bool distance 0 = false →
  nextRoad self (GetRoadId waypoint) = mret (Some next_road) →
  frontWaypoint world self waypoint distance =
    ([QueryNext waypoint distance],
     inr (frontWaypoint_loop (GetRoadId waypoint) next_road
            (GetNext world waypoint distance) None)).
Proof.
  intros Hd Hn. unfold frontWaypoint. rewrite Hd.
  unfold callGetNext, mbind, Call_bind. by rewrite Hn.
Qed.

Lemma frontWaypoint_throws waypoint distance e :
  Qle_bool distance 0 = false →
  nextRoad self (GetRoadId waypoint) = throw e →
  frontWaypoint world self waypoint distance =
    ([QueryNext waypoint distance], inl e).
Proof.
  intros Hd Hn. unfold frontWaypoint. rewrite Hd.
  unfold callGetNext, mbind, Call_bind. by rewrite Hn.
Qed.

Lemma Qle_bool_false_pos (d : Q) : (0 < d)%Q → Qle_bool d 0 = false.
Proof.
  intros Hd. destruct (Qle_bool d 0) eqn:E; [|done].
  apply Qle_bool_iff in E. exfalso. by apply (Qlt_not_le _ _ Hd).
Qed.

(** C1. For a waypoint [p] whose road is on the route and a distance
    [d > 0], [frontWaypoint p d] returns normally; among the waypoints
    of [p->GetNext(d)] it returns one on the road of [p] when there is
    one, otherwise one on [nextRoad] of that road when there is one,
    otherwise the empty pointer. *)
Theorem frontWaypoint_same_road_then_next_road p d :
  GetRoadId p ∈ S_ → (0 < d)%Q →
  ∃ next_road result,
    outcome (nextRoad self (GetRoadId p)) = inr (Some next_road)
    ∧ outcome (frontWaypoint world self p d) = inr result
    ∧ ((∃ c, c ∈ GetNext world p d ∧ GetRoadId c = GetRoadId p) →
       ∃ c, result = Some c ∧ c ∈ GetNext world p d
            ∧ GetRoadId c = GetRoadId p)
    ∧ ((∀ c, c ∈ GetNext world p d → GetRoadId c ≠ GetRoadId p) →
       (∃ c, c ∈ GetNext world p d ∧ GetRoadId c = next_road) →
       ∃ c, result = Some c ∧ c ∈ GetNext world p d
            ∧ GetRoadId c = next_road)
    ∧ ((∀ c, c ∈ GetNext world p d →
             GetRoadId c ≠ GetRoadId p ∧ GetRoadId c ≠ next_road) →
       result = None).
Proof.
  intros Hin Hd. destruct (std_find_is_Some _ _ Hin) as [i Hi].
  pose proof (nextRoad_found self _ _ Hi) as Hn.
  set (next_road := if Nat.eqb i (length S_ - 1) then front S_
                    else deref S_ (S i)) in Hn.
  exists next_road, (frontWaypoint_loop (GetRoadId p) next_road
                       (GetNext world p d) None).
  rewrite (frontWaypoint_eval p d next_road (Qle_bool_false_pos d Hd) Hn), Hn.
  split_and!; [done|done| | |].
  - apply frontWaypoint_loop_same.
  - apply frontWaypoint_loop_next.
  - apply frontWaypoint_loop_none.
Qed.

(** C3. For a road that is not in the sequence both [nextRoad] and
    [prevRoad] throw the not-on-route exception and return nothing. *)
Theorem nextRoad_prevRoad_not_on_route road :
  road ∉ S_ →
  nextRoad self road = throw NotOnRoute
  ∧ prevRoad self road = throw NotOnRoute.
Proof.
  intros Hnot. apply std_find_None in Hnot.
  split; [by apply nextRoad_not_found | by apply prevRoad_not_found].
Qed.

Lemma waypointOnRoute_loop_spec candidates :
  match waypointOnRoute_loop self candidates with
  | Some c =>
      ∃ before after, candidates = before ++ c :: after
        ∧ GetRoadId c ∈ S_
        ∧ ∀ x, x ∈ before → GetRoadId x ∉ S_
  | None => ∀ x, x ∈ candidates → GetRoadId x ∉ S_
  end.
Proof.
  induction candidates as [|x xs IH]; simpl.
  - intros x Hx. by apply elem_of_nil in Hx.
  - destruct (std_find S_ (GetRoadId x)) as [i|] eqn:E.
    + exists [], xs. split_and!; [done| |].
      * apply std_find_Some in E. by eapply list_elem_of_lookup_2.
      * intros y Hy. by apply elem_of_nil in Hy.
    + apply std_find_None in E.
      destruct (waypointOnRoute_loop self xs) as [c|].
      * destruct IH as (before & after & -> & Hc & Hb).
        exists (x :: before), after. split_and!; [done|done|].
        intros y Hy. apply elem_of_cons in Hy as [->|Hy]; auto.
      * intros y Hy. apply elem_of_cons in Hy as [->|Hy]; auto.
Qed.

(** C5. [waypointOnRoute p] sends the single query [p->GetNext(0.01)],
    never throws, and returns the first waypoint of the answer, in the
    order of the answer, whose road is in the sequence, or the empty
    pointer when no waypoint of the answer is on such a road. *)
Theorem waypointOnRoute_first_on_route p :
  queries (waypointOnRoute world self p) = [QueryNext p (1 # 100)]
  ∧ ∃ result,
      outcome (waypointOnRoute world self p) = inr result
      ∧ match result with
        | Some c =>
            ∃ before after,
              GetNext world p (1 # 100) = before ++ c :: after
              ∧ GetRoadId c ∈ S_
              ∧ ∀ x, x ∈ before → GetRoadId x ∉ S_
        | None => ∀ x, x ∈ GetNext world p (1 # 100) → GetRoadId x ∉ S_
        end.
Proof.
  split; [done|].
  exists (waypointOnRoute_loop self (GetNext world p (1 # 100))).
  split; [done|]. apply waypointOnRoute_loop_spec.
Qed.

(** C6. For a distance [d <= 0], [frontWaypoint p d] throws the
    invalid-distance exception without having sent any query to the map;
    it returns neither a waypoint nor the empty pointer. *)
Theorem frontWaypoint_nonpositive_distance p d :
  (d <= 0)%Q →
  queries (frontWaypoint world self p d) = []
  ∧ outcome (frontWaypoint world self p d) = inl InvalidArgument.
Proof.
  intros Hd. unfold frontWaypoint.
  by rewrite (proj2 (Qle_bool_iff d 0) Hd).
Qed.

(** C9. For a waypoint [p] whose road is not in the sequence and a
    distance [d > 0], [frontWaypoint p d] throws the not-on-route
    exception, whatever [p->GetNext(d)] contains: the only query is
    that one, and no value (waypoint or empty pointer) is returned. *)
Theorem frontWaypoint_off_route_throws p d :
  GetRoadId p ∉ S_ → (0 < d)%Q →
  queries (frontWaypoint world self p d) = [QueryNext p d]
  ∧ outcome (frontWaypoint world self p d) = inl NotOnRoute.
Proof.
  intros Hnot Hd. apply std_find_None in Hnot.
  by rewrite (frontWaypoint_throws p d NotOnRoute
                (Qle_bool_false_pos d Hd) (nextRoad_not_found self _ Hnot)).
Qed.

(** C10. Whenever [nextRoad] or [prevRoad] returns instead of throwing,
    the optional it returns holds a road identifier; the empty optional
    is never returned. *)
Theorem nextRoad_prevRoad_engaged road :
  (∀ r, outcome (nextRoad self road) = inr r → is_Some r)
  ∧ (∀ r, outcome (prevRoad self road) = inr r → is_Some r).
Proof.
  split; intros r.
  - destruct (std_find S_ road) as [i|] eqn:E.
    + rewrite (nextRoad_found self _ _ E). intros [= <-]. by eexists.
    + by rewrite (nextRoad_not_found self _ E).
  - destruct (std_find S_ road) as [i|] eqn:E.
    + rewrite (prevRoad_found self _ _ E). intros [= <-]. by eexists.
    + by rewrite (prevRoad_not_found self _ E).
Qed.

End RouterClaims.

(** C2. In the configured sequence, which starts 47, 558, 48, 887 and
    ends 46, 659, [nextRoad] of the last road is the first road and
    [prevRoad] of the first road is the last road; in particular
    [nextRoad 47 = 558], [prevRoad 558 = 47], [nextRoad 659 = 47] and
    [prevRoad 47 = 659]. *)
Theorem configured_route_wraps_around :
  let S := road_sequence_ LoopRouter.new in
  take 4 S = [47; 558; 48; 887]
  ∧ drop (length S - 2) S = [46; 659]
  ∧ nextRoad LoopRouter.new (back S) = mret (Some (front S))
  ∧ prevRoad LoopRouter.new (front S) = mret (Some (back S))
  ∧ nextRoad LoopRouter.new 47 = mret (Some 558)
  ∧ prevRoad LoopRouter.new 558 = mret (Some 47)
  ∧ nextRoad LoopRouter.new 659 = mret (Some 47)
  ∧ prevRoad LoopRouter.new 47 = mret (Some 659).
Proof. repeat split. Qed.

Lemma configured_route_NoDup : NoDup (road_sequence_ LoopRouter.new).
Proof. apply (bool_decide_unpack (NoDup _)). by vm_compute. Qed.

(** C4. For every road [s] of the configured sequence,
    [nextRoad (prevRoad s) = s] and [prevRoad (nextRoad s) = s]. *)
Theorem configured_route_next_prev_inverse s :
  s ∈ road_sequence_ LoopRouter.new →
  (∃ p, prevRoad LoopRouter.new s = mret (Some p)
        ∧ nextRoad LoopRouter.new p = mret (Some s))
  ∧ (∃ n, nextRoad LoopRouter.new s = mret (Some n)
          ∧ prevRoad LoopRouter.new n = mret (Some s)).
Proof.
  intros Hin. split.
  - by apply nextRoad_undoes_prevRoad; [apply configured_route_NoDup|].
  - by apply prevRoad_undoes_nextRoad; [apply configured_route_NoDup|].
Qed.

(** ** The claims on the two small maps *)

Lemma frontWaypoint_same_road_then_next_road_witness :
  ∃ next_road result,
    outcome (nextRoad LoopRouter.new (GetRoadId Scenario.origin))
    = inr (Some next_road)
    ∧ outcome (frontWaypoint Scenario.corridor LoopRouter.new
                 Scenario.origin 1) = inr result
    ∧ ((∃ c, c ∈ GetNext Scenario.corridor Scenario.origin 1
             ∧ GetRoadId c = GetRoadId Scenario.origin) →
       ∃ c, result = Some c
            ∧ c ∈ GetNext Scenario.corridor Scenario.origin 1
            ∧ GetRoadId c = GetRoadId Scenario.origin)
    ∧ ((∀ c, c ∈ GetNext Scenario.corridor Scenario.origin 1 →
             GetRoadId c ≠ GetRoadId Scenario.origin) →
       (∃ c, c ∈ GetNext Scenario.corridor Scenario.origin 1
             ∧ GetRoadId c = next_road) →
       ∃ c, result = Some c
            ∧ c ∈ GetNext Scenario.corridor Scenario.origin 1
            ∧ GetRoadId c = next_road)
    ∧ ((∀ c, c ∈ GetNext Scenario.corridor Scenario.origin 1 →
             GetRoadId c ≠ GetRoadId Scenario.origin
             ∧ GetRoadId c ≠ next_road) →
       result = None).
Proof.
  apply (frontWaypoint_same_road_then_next_road
           Scenario.corridor LoopRouter.new Scenario.origin 1).
  - apply list_elem_of_here.
  - reflexivity.
Defined.

Lemma nextRoad_prevRoad_not_on_route_witness :
  (1 ∉ road_sequence_ LoopRouter.new)
  ∧ nextRoad LoopRouter.new 1 = throw NotOnRoute
  ∧ prevRoad LoopRouter.new 1 = throw NotOnRoute.
Proof.
  assert (1 ∉ road_sequence_ LoopRouter.new) as H
    by (apply std_find_None; reflexivity).
  split; [exact H|].
  exact (nextRoad_prevRoad_not_on_route LoopRouter.new 1 H).
Defined.

Lemma configured_route_next_prev_inverse_witness :
  (∃ p, prevRoad LoopRouter.new 47 = mret (Some p)
        ∧ nextRoad LoopRouter.new p = mret (Some 47))
  ∧ (∃ n, nextRoad LoopRouter.new 47 = mret (Some n)
          ∧ prevRoad LoopRouter.new n = mret (Some 47)).
Proof.
  apply (configured_route_next_prev_inverse 47). apply list_elem_of_here.
Defined.

Lemma frontWaypoint_nonpositive_distance_witness :
  queries (frontWaypoint Scenario.corridor LoopRouter.new Scenario.origin 0)
  = []
  ∧ outcome (frontWaypoint Scenario.corridor LoopRouter.new
               Scenario.origin 0) = inl InvalidArgument.
Proof.
  apply (frontWaypoint_nonpositive_distance
           Scenario.corridor LoopRouter.new Scenario.origin 0).
  apply Qle_refl.
Defined.

Lemma frontWaypoint_off_route_throws_witness :
  (∃ c, c ∈ GetNext Scenario.corridor Scenario.stray 1
        ∧ GetRoadId c = GetRoadId Scenario.stray)
  ∧ queries (frontWaypoint Scenario.corridor LoopRouter.new Scenario.stray 1)
    = [QueryNext Scenario.stray 1]
  ∧ outcome (frontWaypoint Scenario.corridor LoopRouter.new
               Scenario.stray 1) = inl NotOnRoute.
Proof.
  split.
  - eexists. split; [apply list_elem_of_here|reflexivity].
  - apply (frontWaypoint_off_route_throws
             Scenario.corridor LoopRouter.new Scenario.stray 1).
    + apply std_find_None. reflexivity.
    + reflexivity.
Defined.

Lemma nextRoad_prevRoad_engaged_witness :
  is_Some (Some 558) ∧ is_Some (Some 659).
Proof.
  split.
  - apply (proj1 (nextRoad_prevRoad_engaged LoopRouter.new 47) (Some 558)).
    reflexivity.
  - apply (proj2 (nextRoad_prevRoad_engaged LoopRouter.new 47) (Some 659)).
    reflexivity.
Defined.

(** ** More about the loop router *)

Section RouterMore.

Context (world : CarlaMap) (self : LoopRouter.t).

Local Abbreviation S_ := (road_sequence_ self).

Lemma std_find_first_occurrence (pre post : list Z) (x : Z) :
  x ∉ pre → std_find (pre ++ x :: post) x = Some (length pre).
Proof.
  induction pre as [|y pre IH]; simpl.
  - intros _. by rewrite Z.eqb_refl.
  - intros Hnot. apply not_elem_of_cons in Hnot as [Hne Hnot].
    destruct (Z.eqb_spec y x) as [E|_]; [congruence|].
    by rewrite (IH Hnot).
Qed.

Lemma deref_app_r (pre post : list Z) (i : nat) :
  deref (pre ++ post) (length pre + i) = deref post i.
Proof.
  unfold deref. rewrite app_nth2 by lia. f_equal. lia.
Qed.

Lemma deref_last (v : list Z) (d : Z) :
  v ≠ [] → deref v (length v - 1) = default d (last v).
Proof.
  intros Hv. destruct (last v) as [x|] eqn:E.
  - simpl. apply deref_lookup. rewrite last_lookup in E.
    by replace (length v - 1)%nat with (pred (length v)) by lia.
  - by apply last_None in E.
Qed.

(** X1. [nextRoad] and [prevRoad] act on the first occurrence of the
    road in the sequence: the successor is the road after it, or the
    first road of the sequence when it is the last; the predecessor is
    the road before it, or the last road of the sequence when it is
    the first. *)
Theorem nextRoad_prevRoad_first_occurrence pre road post :
  S_ = pre ++ road :: post → road ∉ pre →
  nextRoad self road
  = mret (Some (default (default road (head pre)) (head post)))
  ∧ prevRoad self road
    = mret (Some (default (default road (last post)) (last pre))).
Proof.
  intros HS Hnot.
  pose proof (std_find_first_occurrence pre post road Hnot) as Hfind.
  rewrite <- HS in Hfind. split.
  - rewrite (nextRoad_found self _ _ Hfind). do 2 f_equal.
    rewrite HS, length_app. simpl.
    destruct post as [|x post]; simpl.
    + replace (length pre + 1 - 1)%nat with (length pre) by lia.
      rewrite Nat.eqb_refl. unfold front. by destruct pre.
    + destruct (Nat.eqb_spec (length pre) (length pre + S (S (length post)) - 1))
        as [E|_]; [lia|].
      replace (S (length pre)) with (length pre + 1)%nat by lia.
      by rewrite (deref_app_r pre (road :: x :: post) 1).
  - rewrite (prevRoad_found self _ _ Hfind). do 2 f_equal.
    destruct pre as [|p pre].
    + simpl. unfold back. rewrite HS. simpl app.
      rewrite (deref_last (road :: post) road) by done.
      rewrite last_cons. by destruct (last post).
    + destruct (Nat.eqb_spec (length (p :: pre)) 0) as [E|_]; [done|].
      rewrite HS. unfold deref. rewrite app_nth1 by (simpl; lia).
      change (deref (p :: pre) (length (p :: pre) - 1)
              = default (default road (last post)) (last (p :: pre))).
      rewrite (deref_last (p :: pre) road) by done.
      destruct (last (p :: pre)) eqn:E; [done|]. by apply last_None in E.
Qed.

Lemma nextRoad_index i s :
  NoDup S_ → S_ !! i = Some s →
  ∃ t, nextRoad self s = mret (Some t)
       ∧ S_ !! ((i + 1) mod length S_)%nat = Some t.
Proof.
  intros Hnd Hs. pose proof (lookup_lt_Some _ _ _ Hs) as Hlt.
  rewrite (nextRoad_found self _ _ (std_find_NoDup _ _ _ Hnd Hs)).
  destruct (Nat.eqb_spec i (length S_ - 1)) as [E|E].
  - exists (front S_). split; [done|].
    replace (i + 1)%nat with (length S_) by lia.
    rewrite Nat.Div0.mod_same. apply lookup_deref. lia.
  - exists (deref S_ (S i)). split; [done|].
    rewrite Nat.mod_small by lia. replace (i + 1)%nat with (S i) by lia.
    apply lookup_deref. lia.
Qed.

Lemma nextRoads_index k i s :
  NoDup S_ → S_ !! i = Some s →
  nextRoads self k s = S_ !! ((i + k) mod length S_)%nat.
Proof.
  intros Hnd. revert i s. induction k as [|k IH]; intros i s Hs.
  - simpl. pose proof (lookup_lt_Some _ _ _ Hs).
    rewrite Nat.add_0_r, Nat.mod_small by done. done.
  - destruct (nextRoad_index i s Hnd Hs) as (t & Ht & Hi).
    simpl. rewrite Ht. simpl. rewrite (IH _ _ Hi).
    rewrite Nat.Div0.add_mod_idemp_l. f_equal. f_equal. lia.
Qed.

(** X2. On a sequence without repetition, [k] successive calls of
    [nextRoad] from the road at offset [i] end on the road at offset
    [(i + k) mod length]; after as many calls as the sequence has roads
    the route is back where it started. *)
Theorem nextRoad_iterated i s k :
  NoDup S_ → S_ !! i = Some s →
  nextRoads self k s = S_ !! ((i + k) mod length S_)%nat
  ∧ nextRoads self (length S_) s = Some s.
Proof.
  intros Hnd Hs. split; [by apply nextRoads_index|].
  rewrite (nextRoads_index _ i s Hnd Hs).
  pose proof (lookup_lt_Some _ _ _ Hs).
  rewrite <- Nat.Div0.add_mod_idemp_r, Nat.Div0.mod_same, Nat.add_0_r.
  by rewrite Nat.mod_small.
Qed.

(** X3. On a sequence without repetition [prevRoad] is [nextRoad] on the
    reversed sequence, for roads on the route and off it. *)
Theorem prevRoad_is_nextRoad_reversed road :
  NoDup S_ →
  prevRoad self road = nextRoad (LoopRouter.mk (reverse S_)) road.
Proof.
  intros Hnd. destruct (std_find S_ road) as [i|] eqn:Hfind.
  - pose proof (std_find_Some _ _ _ Hfind) as Hs.
    pose proof (lookup_lt_Some _ _ _ Hs) as Hlt.
    assert (reverse S_ !! (length S_ - S i)%nat = Some road) as Hr.
    { rewrite reverse_lookup by lia. rewrite <- Hs. f_equal. lia. }
    assert (std_find (road_sequence_ (LoopRouter.mk (reverse S_))) road
            = Some (length S_ - S i)%nat) as Hfind'.
    { apply std_find_NoDup; [simpl; by rewrite reverse_Permutation|done]. }
    rewrite (prevRoad_found self _ _ Hfind).
    rewrite (nextRoad_found _ _ _ Hfind'). simpl. rewrite length_reverse.
    do 2 f_equal.
    destruct (Nat.eqb_spec i 0) as [->|Hi].
    + rewrite Nat.eqb_refl. unfold back, front. symmetry.
      apply deref_lookup. rewrite reverse_lookup by lia.
      apply lookup_deref. lia.
    + destruct (Nat.eqb_spec (length S_ - S i) (length S_ - 1)) as [E|_]; [lia|].
      symmetry. apply deref_lookup. rewrite reverse_lookup by lia.
      replace (length S_ - S (S (length S_ - S i)))%nat with (i - 1)%nat by lia.
      apply lookup_deref. lia.
  - assert (std_find (road_sequence_ (LoopRouter.mk (reverse S_))) road = None)
      as Hfind'.
    { apply std_find_None. simpl. rewrite elem_of_reverse.
      by apply std_find_None. }
    by rewrite (prevRoad_not_found self _ Hfind),
      (nextRoad_not_found _ _ Hfind').
Qed.

Lemma nextRoad_returns road r :
  outcome (nextRoad self road) = inr (Some r) → road ∈ S_ ∧ r ∈ S_.
Proof.
  destruct (std_find S_ road) as [i|] eqn:Hfind.
  - pose proof (std_find_Some _ _ _ Hfind) as Hs.
    pose proof (lookup_lt_Some _ _ _ Hs) as Hlt.
    rewrite (nextRoad_found self _ _ Hfind). intros [= <-].
    split; [by eapply list_elem_of_lookup_2|].
    destruct (Nat.eqb_spec i (length S_ - 1)) as [E|E];
      eapply list_elem_of_lookup_2; apply lookup_deref; lia.
  - by rewrite (nextRoad_not_found self _ Hfind).
Qed.

Lemma prevRoad_returns road r :
  outcome (prevRoad self road) = inr (Some r) → road ∈ S_ ∧ r ∈ S_.
Proof.
  destruct (std_find S_ road) as [i|] eqn:Hfind.
  - pose proof (std_find_Some _ _ _ Hfind) as Hs.
    pose proof (lookup_lt_Some _ _ _ Hs) as Hlt.
    rewrite (prevRoad_found self _ _ Hfind). intros [= <-].
    split; [by eapply list_elem_of_lookup_2|].
    destruct (Nat.eqb_spec i 0) as [E|E];
      eapply list_elem_of_lookup_2; apply lookup_deref; lia.
  - by rewrite (prevRoad_not_found self _ Hfind).
Qed.

(** X4. A road returned by [nextRoad] or [prevRoad] is a road of the
    sequence, and so was the road asked about: the two never lead off
    the route, whatever the sequence. *)
Theorem nextRoad_prevRoad_stay_on_route road r :
  (outcome (nextRoad self road) = inr (Some r) → road ∈ S_ ∧ r ∈ S_)
  ∧ (outcome (prevRoad self road) = inr (Some r) → road ∈ S_ ∧ r ∈ S_).
Proof. split; [apply nextRoad_returns|apply prevRoad_returns]. Qed.

(** X5. On every sequence without repetition, not only the configured
    one, [nextRoad] and [prevRoad] undo each other on the roads of the
    sequence. *)
Theorem nextRoad_prevRoad_inverse_without_repetition s :
  NoDup S_ → s ∈ S_ →
  (∃ p, prevRoad self s = mret (Some p) ∧ nextRoad self p = mret (Some s))
  ∧ (∃ n, nextRoad self s = mret (Some n) ∧ prevRoad self n = mret (Some s)).
Proof.
  intros Hnd Hin. split.
  - by apply nextRoad_undoes_prevRoad.
  - by apply prevRoad_undoes_nextRoad.
Qed.

Lemma frontWaypoint_loop_first_same this_road next_road before c after acc :
  GetRoadId c = this_road →
  (∀ x, x ∈ before → GetRoadId x ≠ this_road) →
  frontWaypoint_loop this_road next_road (before ++ c :: after) acc = Some c.
Proof.
  intros Hc. revert acc. induction before as [|x before IH]; intros acc Hb.
  - simpl. by rewrite (proj2 (Z.eqb_eq _ _) Hc).
  - simpl. destruct (Z.eqb_spec (GetRoadId x) this_road) as [E|_].
    { exfalso. apply (Hb x); [apply list_elem_of_here|done]. }
    apply IH. intros; apply Hb; by apply list_elem_of_further.
Qed.

Lemma frontWaypoint_loop_last_next this_road next_road before c after acc :
  GetRoadId c = next_road →
  (∀ x, x ∈ before ++ c :: after → GetRoadId x ≠ this_road) →
  (∀ x, x ∈ after → GetRoadId x ≠ next_road) →
  frontWaypoint_loop this_road next_road (before ++ c :: after) acc = Some c.
Proof.
  intros Hc. revert acc. induction before as [|x before IH]; intros acc Hno Ha.
  - simpl. destruct (Z.eqb_spec (GetRoadId c) this_road) as [E|_].
    { exfalso. apply (Hno c); [apply list_elem_of_here|done]. }
    rewrite (proj2 (Z.eqb_eq _ _) Hc). apply frontWaypoint_loop_none.
    intros y Hy. split; [|by apply Ha].
    apply Hno. by apply list_elem_of_further.
  - simpl. destruct (Z.eqb_spec (GetRoadId x) this_road) as [E|_].
    { exfalso. apply (Hno x); [apply list_elem_of_here|done]. }
    apply IH; [|done]. intros; apply Hno; by apply list_elem_of_further.
Qed.

Lemma frontWaypoint_loop_result this_road next_road candidates acc c :
  frontWaypoint_loop this_road next_road candidates acc = Some c →
  (c ∈ candidates ∧ (GetRoadId c = this_road ∨ GetRoadId c = next_road))
  ∨ acc = Some c.
Proof.
  revert acc. induction candidates as [|x xs IH]; intros acc; simpl.
  - by right.
  - destruct (Z.eqb_spec (GetRoadId x) this_road) as [E|_].
    + intros [= <-]. left. split; [apply list_elem_of_here|by left].
    + intros H. destruct (IH _ H) as [[Hin Hr]|Hacc].
      * left. split; [by apply list_elem_of_further|done].
      * destruct (Z.eqb_spec (GetRoadId x) next_road) as [E|_]; [|by right].
        injection Hacc as <-. left.
        split; [apply list_elem_of_here|by right].
Qed.

(** What a returned waypoint tells about the call. *)
Lemma frontWaypoint_returned p d c :
  outcome (frontWaypoint world self p d) = inr (Some c) →
  (0 < d)%Q
  ∧ queries (frontWaypoint world self p d) = [QueryNext p d]
  ∧ c ∈ GetNext world p d
  ∧ ∃ next_road,
      outcome (nextRoad self (GetRoadId p)) = inr (Some next_road)
      ∧ (GetRoadId c = GetRoadId p ∨ GetRoadId c = next_road).
Proof.
  destruct (Qle_bool d 0) eqn:Hd.
  { unfold frontWaypoint. by rewrite Hd. }
  assert (0 < d)%Q as Hpos.
  { destruct (Qlt_le_dec 0 d) as [?|Hle]; [done|].
    apply Qle_bool_iff in Hle. congruence. }
  destruct (std_find S_ (GetRoadId p)) as [i|] eqn:Hfind.
  - pose proof (nextRoad_found self _ _ Hfind) as Hn.
    rewrite (frontWaypoint_eval world self p d _ Hd Hn). simpl.
    intros [= Hloop]. apply frontWaypoint_loop_result in Hloop
      as [[Hin Hr]|?]; [|done].
    split_and!; [done|done|done|]. eexists. rewrite Hn. split; [done|].
    exact Hr.
  - by rewrite (frontWaypoint_throws world self p d NotOnRoute Hd
                  (nextRoad_not_found self _ Hfind)).
Qed.

Lemma frontWaypoint_returned_on_route p d c :
  outcome (frontWaypoint world self p d) = inr (Some c) →
  GetRoadId c ∈ S_.
Proof.
  intros H. apply frontWaypoint_returned in H
    as (_ & _ & _ & next_road & Hn & Hr).
  apply nextRoad_returns in Hn as [Hp Hnext].
  destruct Hr as [-> | ->]; done.
Qed.

Lemma frontWaypoint_on_route_returns (world' : CarlaMap) p d :
  GetRoadId p ∈ S_ → (0 < d)%Q →
  ∃ result, outcome (frontWaypoint world' self p d) = inr result.
Proof.
  intros Hin Hd. destruct (std_find_is_Some _ _ Hin) as [i Hi].
  eexists. by rewrite (frontWaypoint_eval world' self p d _
                         (Qle_bool_false_pos d Hd)
                         (nextRoad_found self _ _ Hi)).
Qed.

(** X6. For a waypoint on the route and a positive distance,
    [frontWaypoint] returns the first candidate, in the order of
    [GetNext], that is on the road of the waypoint; when no candidate is
    on that road it returns the last candidate that is on the next
    road. *)
Theorem frontWaypoint_first_same_last_next p d :
  GetRoadId p ∈ S_ → (0 < d)%Q →
  ∃ next_road result,
    outcome (nextRoad self (GetRoadId p)) = inr (Some next_road)
    ∧ outcome (frontWaypoint world self p d) = inr result
    ∧ (∀ before c after,
         GetNext world p d = before ++ c :: after →
         GetRoadId c = GetRoadId p →
         (∀ x, x ∈ before → GetRoadId x ≠ GetRoadId p) →
         result = Some c)
    ∧ (∀ before c after,
         GetNext world p d = before ++ c :: after →
         (∀ x, x ∈ GetNext world p d → GetRoadId x ≠ GetRoadId p) →
         GetRoadId c = next_road →
         (∀ x, x ∈ after → GetRoadId x ≠ next_road) →
         result = Some c).
Proof.
  intros Hin Hd. destruct (std_find_is_Some _ _ Hin) as [i Hi].
  pose proof (nextRoad_found self _ _ Hi) as Hn.
  eexists _, _. rewrite Hn.
  rewrite (frontWaypoint_eval world self p d _ (Qle_bool_false_pos d Hd) Hn).
  split_and!; [done|done| |].
  - intros before c after -> Hc Hb. by apply frontWaypoint_loop_first_same.
  - intros before c after HE Hno Hc Ha. rewrite HE in Hno |- *.
    by apply frontWaypoint_loop_last_next.
Qed.


(** X8. A waypoint returned by [frontWaypoint] is on the route: a
    further call of [frontWaypoint] from it, with any positive distance
    and on any map, returns and does not throw. *)
Theorem frontWaypoint_can_be_repeated (world' : CarlaMap) p d c d' :
  outcome (frontWaypoint world self p d) = inr (Some c) → (0 < d')%Q →
  GetRoadId c ∈ S_
  ∧ ∃ result, outcome (frontWaypoint world' self c d') = inr result.
Proof.
  intros H Hd'. pose proof (frontWaypoint_returned_on_route p d c H) as Hc.
  split; [done|]. by apply frontWaypoint_on_route_returns.
Qed.

(** X9. A waypoint returned by [waypointOnRoute] is accepted by
    [frontWaypoint]: the call from it, with any positive distance,
    returns and does not throw. *)
Theorem waypointOnRoute_then_frontWaypoint (world' : CarlaMap) p c d :
  outcome (waypointOnRoute world self p) = inr (Some c) → (0 < d)%Q →
  ∃ result, outcome (frontWaypoint world' self c d) = inr result.
Proof.
  intros H Hd. apply frontWaypoint_on_route_returns; [|done].
  unfold waypointOnRoute, callGetNext in H. simpl in H. injection H as H.
  pose proof (waypointOnRoute_loop_spec self (GetNext world p (1 # 100))) as Hs.
  rewrite H in Hs. by destruct Hs as (? & ? & _ & ? & _).
Qed.

(** X10. Whenever [frontWaypoint] with the lookahead of
    [waypointOnRoute] returns a waypoint, [waypointOnRoute] returns a
    waypoint as well, on a road of the route. *)
Theorem frontWaypoint_implies_waypointOnRoute p c :
  outcome (frontWaypoint world self p (1 # 100)) = inr (Some c) →
  ∃ c', outcome (waypointOnRoute world self p) = inr (Some c')
        ∧ GetRoadId c' ∈ S_.
Proof.
  intros H. pose proof (frontWaypoint_returned_on_route _ _ _ H) as Hc.
  apply frontWaypoint_returned in H as (_ & _ & Hin & _).
  pose proof (waypointOnRoute_loop_spec self (GetNext world p (1 # 100))) as Hs.
  unfold waypointOnRoute, callGetNext. simpl.
  destruct (waypointOnRoute_loop self (GetNext world p (1 # 100))) as [c'|].
  - exists c'. split; [done|]. by destruct Hs as (? & ? & _ & ? & _).
  - exfalso. by apply (Hs c Hin).
Qed.

End RouterMore.


(** ** More about the tables of the lattice *)

Section TableFacts.

Import Lattice.

Implicit Types (l : Lattice.t) (w : CarlaWaypoint).

Lemma with_roadlanes_same l :
  with_roadlanes (roadlane_to_waypoints_table_ l) l = l.
Proof. by destruct l. Qed.

Lemma with_nodes_same l :
  with_nodes (waypoint_to_node_table_ l) l = l.
Proof. by destruct l. Qed.

Lemma filter_other_ids (id : Z) (ids : list Z) :
  id ∉ ids → filter (λ x, x ≠ id) ids = ids.
Proof.
  induction ids as [|x ids IH]; [done|]. intros Hnot.
  apply not_elem_of_cons in Hnot as [Hne Hnot].
  rewrite filter_cons_True by done. by rewrite IH.
Qed.

Lemma roadlanes_augment w l :
  roadlane_to_waypoints_table_ (augmentRoadlaneToWaypointsTable w l)
  = <[hashCombine (GetRoadId w) (GetLaneId w) :=
        default [] (roadlane_to_waypoints_table_ l
                      !! hashCombine (GetRoadId w) (GetLaneId w))
        ++ [GetId w]]> (roadlane_to_waypoints_table_ l).
Proof.
  unfold augmentRoadlaneToWaypointsTable. simpl.
  destruct (roadlane_to_waypoints_table_ l !! _) as [old|] eqn:E.
  - by rewrite E.
  - rewrite lookup_insert_eq. simpl. by rewrite insert_insert_eq.
Qed.

(** X11. [augmentRoadlaneToWaypointsTable] puts the identifier of the
    waypoint at the end of the list filed under its road and lane,
    after the identifiers already there and starting a list when there
    is none; the other lists and the node table are left as they are. *)
Theorem augmentRoadlane_appends w l :
  let key := hashCombine (GetRoadId w) (GetLaneId w) in
  let l' := augmentRoadlaneToWaypointsTable w l in
  roadlane_to_waypoints_table_ l' !! key
  = Some (default [] (roadlane_to_waypoints_table_ l !! key) ++ [GetId w])
  ∧ (∀ key', key' ≠ key →
       roadlane_to_waypoints_table_ l' !! key'
       = roadlane_to_waypoints_table_ l !! key')
  ∧ waypoint_to_node_table_ l' = waypoint_to_node_table_ l.
Proof.
  intros key l'. unfold l'. rewrite roadlanes_augment. fold key.
  split_and!.
  - apply lookup_insert_eq.
  - intros key' Hne. by apply lookup_insert_ne.
  - unfold augmentRoadlaneToWaypointsTable. simpl. done.
Qed.

(** X12. [reduceRoadlaneToWaypointsTable] removes every occurrence of
    the identifier of the waypoint from the list filed under its road
    and lane and keeps the other identifiers in their order; a list
    that becomes empty stays in the table, a road and lane without a
    list get none; the other lists and the node table are left as they
    are. *)
Theorem reduceRoadlane_removes_all w l :
  let key := hashCombine (GetRoadId w) (GetLaneId w) in
  let l' := reduceRoadlaneToWaypointsTable w l in
  roadlane_to_waypoints_table_ l' !! key
  = filter (λ id, id ≠ GetId w) <$> roadlane_to_waypoints_table_ l !! key
  ∧ (∀ key', key' ≠ key →
       roadlane_to_waypoints_table_ l' !! key'
       = roadlane_to_waypoints_table_ l !! key')
  ∧ waypoint_to_node_table_ l' = waypoint_to_node_table_ l.
Proof.
  intros key l'. unfold l', reduceRoadlaneToWaypointsTable. fold key.
  destruct (roadlane_to_waypoints_table_ l !! key) as [old|] eqn:E; simpl.
  - split_and!; [apply lookup_insert_eq| |done].
    intros key' Hne. by apply lookup_insert_ne.
  - by rewrite E.
Qed.

(** X13. Removing a waypoint from the road and lane table right after
    adding it gives the lattice back exactly when its road and lane had
    a list that did not hold its identifier.  When the list held the
    identifier already, every occurrence is gone afterwards; when there
    was no list, an empty list is left behind. *)
Theorem reduceRoadlane_after_augmentRoadlane w l :
  let key := hashCombine (GetRoadId w) (GetLaneId w) in
  let l' := reduceRoadlaneToWaypointsTable w
              (augmentRoadlaneToWaypointsTable w l) in
  (l' = l ↔ ∃ old, roadlane_to_waypoints_table_ l !! key = Some old
                   ∧ GetId w ∉ old)
  ∧ (∀ old, roadlane_to_waypoints_table_ l !! key = Some old →
            GetId w ∉ old → l' = l)
  ∧ (∀ old, roadlane_to_waypoints_table_ l !! key = Some old →
            GetId w ∈ old →
            roadlane_to_waypoints_table_ l' !! key
            = Some (filter (λ id, id ≠ GetId w) old)
            ∧ l' ≠ l)
  ∧ (roadlane_to_waypoints_table_ l !! key = None →
     roadlane_to_waypoints_table_ l' !! key = Some [] ∧ l' ≠ l).
Proof.
  intros key l'.
  assert (roadlane_to_waypoints_table_ l' !! key
          = Some (filter (λ id, id ≠ GetId w)
                    (default [] (roadlane_to_waypoints_table_ l !! key))))
    as Hkey.
  { unfold l', reduceRoadlaneToWaypointsTable. fold key.
    rewrite roadlanes_augment. fold key. rewrite lookup_insert_eq. simpl.
    rewrite lookup_insert_eq, filter_app.
    rewrite filter_cons_False by (intros H; by apply H).
    by rewrite filter_nil, app_nil_r. }
  assert (∀ old, roadlane_to_waypoints_table_ l !! key = Some old →
                 GetId w ∉ old → l' = l) as Hback.
  { intros old Hold Hnot. unfold l', reduceRoadlaneToWaypointsTable. fold key.
    rewrite roadlanes_augment. fold key. rewrite lookup_insert_eq. simpl.
    rewrite insert_insert_eq.
    rewrite Hold. simpl. rewrite filter_app, filter_other_ids by done.
    rewrite filter_cons_False by (intros H; by apply H).
    rewrite filter_nil, app_nil_r, insert_id by done.
    unfold augmentRoadlaneToWaypointsTable, with_roadlanes. simpl.
    by destruct l. }
  assert (∀ old, roadlane_to_waypoints_table_ l !! key = Some old →
                 GetId w ∈ old → l' ≠ l) as Hheld.
  { intros old Hold Hin Heq. rewrite Heq, Hold in Hkey. simpl in Hkey.
    injection Hkey as Hkey. rewrite Hkey in Hin.
    apply list_elem_of_filter in Hin as [Hne _]. by apply Hne. }
  assert (roadlane_to_waypoints_table_ l !! key = None → l' ≠ l) as Hnone.
  { intros Hnone Heq. rewrite Heq, Hnone in Hkey. done. }
  split_and!.
  - split.
    + intros Heq.
      destruct (roadlane_to_waypoints_table_ l !! key) as [old|] eqn:Hold;
        [|by destruct (Hnone eq_refl)].
      exists old. split; [done|]. intros Hin.
      by apply (Hheld old eq_refl Hin).
    + intros (old & Hold & Hnot). by apply (Hback old).
  - exact Hback.
  - intros old Hold Hin. split; [by rewrite Hkey, Hold|by apply (Hheld old)].
  - intros Hnone'. split; [by rewrite Hkey, Hnone'|by apply Hnone].
Qed.

(** X14. In the node table, [reduceWaypointToNodeTable] right after
    [augmentWaypointToNodeTable] gives the lattice back when the
    identifier had no node; [augmentWaypointToNodeTable] on an
    identifier that has a node replaces the node. *)
Theorem reduceWaypoint_after_augmentWaypoint id n n' l :
  (node l id = None →
   reduceWaypointToNodeTable id (augmentWaypointToNodeTable id n l) = l)
  ∧ node (reduceWaypointToNodeTable id (augmentWaypointToNodeTable id n l)) id
    = None
  ∧ augmentWaypointToNodeTable id n' (augmentWaypointToNodeTable id n l)
    = augmentWaypointToNodeTable id n' l
  ∧ ∀ id', node (augmentWaypointToNodeTable id n l) id'
           = if decide (id = id') then Some n else node l id'.
Proof.
  unfold reduceWaypointToNodeTable, augmentWaypointToNodeTable, node,
    with_nodes. simpl. split_and!.
  - intros Hnone. rewrite delete_insert_eq, delete_id by done. by destruct l.
  - apply lookup_delete_eq.
  - by rewrite insert_insert_eq.
  - intros id'. apply lookup_insert.
Qed.

End TableFacts.


(** ** The further facts on sample inputs *)

Lemma nextRoad_prevRoad_first_occurrence_witness :
  nextRoad LoopRouter.new 558 = mret (Some 48)
  ∧ prevRoad LoopRouter.new 558 = mret (Some 47).
Proof.
  apply (nextRoad_prevRoad_first_occurrence LoopRouter.new [47] 558
           (drop 2 (road_sequence_ LoopRouter.new))).
  - reflexivity.
  - apply not_elem_of_cons. split; [discriminate|apply not_elem_of_nil].
Defined.

Lemma nextRoad_iterated_witness :
  nextRoads LoopRouter.new 3 659 = Some 48
  ∧ nextRoads LoopRouter.new 28 659 = Some 659.
Proof.
  apply (nextRoad_iterated LoopRouter.new 27 659 3).
  - apply configured_route_NoDup.
  - reflexivity.
Defined.

Lemma prevRoad_is_nextRoad_reversed_witness :
  prevRoad LoopRouter.new 47
  = nextRoad (LoopRouter.mk (reverse (road_sequence_ LoopRouter.new))) 47.
Proof.
  apply (prevRoad_is_nextRoad_reversed LoopRouter.new 47).
  apply configured_route_NoDup.
Defined.

Lemma nextRoad_prevRoad_stay_on_route_witness :
  (47 ∈ road_sequence_ LoopRouter.new ∧ 558 ∈ road_sequence_ LoopRouter.new)
  ∧ (47 ∈ road_sequence_ LoopRouter.new
     ∧ 659 ∈ road_sequence_ LoopRouter.new).
Proof.
  split.
  - apply (proj1 (nextRoad_prevRoad_stay_on_route LoopRouter.new 47 558)).
    reflexivity.
  - apply (proj2 (nextRoad_prevRoad_stay_on_route LoopRouter.new 47 659)).
    reflexivity.
Defined.

Lemma nextRoad_prevRoad_inverse_without_repetition_witness :
  (∃ p, prevRoad (LoopRouter.mk [1; 2; 3]) 1 = mret (Some p)
        ∧ nextRoad (LoopRouter.mk [1; 2; 3]) p = mret (Some 1))
  ∧ (∃ n, nextRoad (LoopRouter.mk [1; 2; 3]) 1 = mret (Some n)
          ∧ prevRoad (LoopRouter.mk [1; 2; 3]) n = mret (Some 1)).
Proof.
  apply (nextRoad_prevRoad_inverse_without_repetition
           (LoopRouter.mk [1; 2; 3]) 1).
  - apply (bool_decide_unpack (NoDup _)). reflexivity.
  - apply list_elem_of_here.
Defined.

Lemma frontWaypoint_first_same_last_next_witness :
  ∃ next_road result,
    outcome (nextRoad LoopRouter.new (GetRoadId Scenario.origin))
    = inr (Some next_road)
    ∧ outcome (frontWaypoint Scenario.corridor LoopRouter.new
                 Scenario.origin 1) = inr result
    ∧ (∀ before c after,
         GetNext Scenario.corridor Scenario.origin 1 = before ++ c :: after →
         GetRoadId c = GetRoadId Scenario.origin →
         (∀ x, x ∈ before → GetRoadId x ≠ GetRoadId Scenario.origin) →
         result = Some c)
    ∧ (∀ before c after,
         GetNext Scenario.corridor Scenario.origin 1 = before ++ c :: after →
         (∀ x, x ∈ GetNext Scenario.corridor Scenario.origin 1 →
               GetRoadId x ≠ GetRoadId Scenario.origin) →
         GetRoadId c = next_road →
         (∀ x, x ∈ after → GetRoadId x ≠ next_road) →
         result = Some c).
Proof.
  apply (frontWaypoint_first_same_last_next
           Scenario.corridor LoopRouter.new Scenario.origin 1).
  - apply list_elem_of_here.
  - reflexivity.
Defined.


Lemma frontWaypoint_can_be_repeated_witness :
  GetRoadId (mkWaypoint 1 47 (-1)) ∈ road_sequence_ LoopRouter.new
  ∧ ∃ result,
      outcome (frontWaypoint Scenario.widening LoopRouter.new
                 (mkWaypoint 1 47 (-1)) 2) = inr result.
Proof.
  apply (frontWaypoint_can_be_repeated Scenario.corridor LoopRouter.new
           Scenario.widening Scenario.origin 1 (mkWaypoint 1 47 (-1)) 2).
  - reflexivity.
  - reflexivity.
Defined.

Lemma waypointOnRoute_then_frontWaypoint_witness :
  ∃ result,
    outcome (frontWaypoint Scenario.corridor LoopRouter.new
               (mkWaypoint 1 47 (-1)) 1) = inr result.
Proof.
  apply (waypointOnRoute_then_frontWaypoint Scenario.corridor LoopRouter.new
           Scenario.corridor Scenario.origin (mkWaypoint 1 47 (-1)) 1).
  - reflexivity.
  - reflexivity.
Defined.

Lemma frontWaypoint_implies_waypointOnRoute_witness :
  ∃ c', outcome (waypointOnRoute Scenario.corridor LoopRouter.new
                   Scenario.origin) = inr (Some c')
        ∧ GetRoadId c' ∈ road_sequence_ LoopRouter.new.
Proof.
  apply (frontWaypoint_implies_waypointOnRoute Scenario.corridor
           LoopRouter.new Scenario.origin (mkWaypoint 1 47 (-1))).
  reflexivity.
Defined.

Lemma reduceRoadlane_after_augmentRoadlane_witness :
  let l := Samples.lattice in
  Lattice.reduceRoadlaneToWaypointsTable Samples.newcomer
    (Lattice.augmentRoadlaneToWaypointsTable Samples.newcomer l) = l
  ∧ (Lattice.roadlane_to_waypoints_table_
       (Lattice.reduceRoadlaneToWaypointsTable Samples.resident
          (Lattice.augmentRoadlaneToWaypointsTable Samples.resident l))
     !! Lattice.hashCombine 47 (-1)
     = Some (filter (λ id, id ≠ 0) [0; 1])
     ∧ Lattice.reduceRoadlaneToWaypointsTable Samples.resident
         (Lattice.augmentRoadlaneToWaypointsTable Samples.resident l) ≠ l)
  ∧ (Lattice.roadlane_to_waypoints_table_
       (Lattice.reduceRoadlaneToWaypointsTable Samples.outsider
          (Lattice.augmentRoadlaneToWaypointsTable Samples.outsider l))
     !! Lattice.hashCombine 47 5 = Some []
     ∧ Lattice.reduceRoadlaneToWaypointsTable Samples.outsider
         (Lattice.augmentRoadlaneToWaypointsTable Samples.outsider l) ≠ l).
Proof.
  intros l. split; [|split].
  - apply (proj1 (proj2 (reduceRoadlane_after_augmentRoadlane
                           Samples.newcomer l)) [0; 1]).
    + reflexivity.
    + intros H.
      repeat (apply elem_of_cons in H as [H|H]; [discriminate|]).
      by apply elem_of_nil in H.
  - apply (proj1 (proj2 (proj2 (reduceRoadlane_after_augmentRoadlane
                                  Samples.resident l))) [0; 1]).
    + reflexivity.
    + apply list_elem_of_here.
  - apply (proj2 (proj2 (proj2 (reduceRoadlane_after_augmentRoadlane
                                  Samples.outsider l)))).
    reflexivity.
Defined.

Lemma reduceWaypoint_after_augmentWaypoint_witness :
  let l := Samples.lattice in
  let n := Lattice.mkNode Samples.newcomer 0 None None None None in
  Lattice.reduceWaypointToNodeTable 99
    (Lattice.augmentWaypointToNodeTable 99 n l) = l.
Proof.
  intros l n.
  apply (proj1 (reduceWaypoint_after_augmentWaypoint 99 n n l)).
  reflexivity.
Defined.
